(** * WarpX field-update core: restriction, nodal stencil, spectral
      coefficients and guard cells

    A shallow embedding of four pieces of WarpX:

    - [Source/Parallelization/InterpolateDensityFineToCoarse.H]
    - [Source/FieldSolver/FiniteDifferenceSolver/FiniteDifferenceAlgorithms/CartesianNodalAlgorithm.H]
    - [Source/FieldSolver/SpectralSolver/SpectralAlgorithms/PsatdAlgorithmRZ.H]
    - [Source/Parallelization/GuardCellManager.H]

    Conventions of the embedding.

    - [amrex::Real] is modelled twice.  The classes are first written
      over the real numbers [R], which fixes the cells, the weights and
      the formulas; the restriction kernel is then written over an
      arbitrary arithmetic and evaluated in IEEE 754 binary64, the
      [amrex::Real] of a double-precision build, where every operation
      rounds.  Statements about values that depend on rounding are made
      about the binary64 evaluation.
    - C++ [int] indices are modelled by [Z].  Signed overflow is undefined
      in C++, so the model speaks about indices for which [i * ratio] and
      [i +- 1] are representable.
    - The preprocessor switches [AMREX_SPACEDIM] and [WARPX_DIM_*] become
      an explicit first argument of the functions that depend on them. *)

From Stdlib Require Import ZArith List Bool Reals Lra Lia.
From Stdlib Require String.
From Stdlib Require Floats QArith Qreals.
Import ListNotations.

Local Open Scope Z_scope.

(** ** AMReX views *)

Module Amrex.

(** [amrex::Dim3] *)
Record Dim3 : Type := mkDim3 { dx : Z; dy : Z; dz : Z }.

(** [amrex::Array4<Real>]: a non-owning view of a box of cells with
    [ncomp] components.  [a_begin] is the inclusive lower corner and
    [a_end] the exclusive upper corner.  The pointer and the strides are
    replaced by the content seen through the view, a function of the
    logical index (i, j, k, n). *)
Record Array4 : Type := mkArray4 {
  a_begin : Dim3;
  a_end   : Dim3;
  ncomp   : Z;
  content : Z -> Z -> Z -> Z -> R
}.

(** [Array4::contains(i,j,k)] *)
Definition contains (a : Array4) (i j k : Z) : bool :=
  (dx (a_begin a) <=? i) && (i <? dx (a_end a)) &&
  (dy (a_begin a) <=? j) && (j <? dy (a_end a)) &&
  (dz (a_begin a) <=? k) && (k <? dz (a_end a)).

(** [Array4::operator()(i,j,k,n)], read *)
Definition get (a : Array4) (i j k n : Z) : R := content a i j k n.

(** [Array4::operator()(i,j,k)], read of component 0 *)
Definition get0 (a : Array4) (i j k : Z) : R := content a i j k 0.

Definition same_cell (i j k n i' j' k' n' : Z) : bool :=
  (i' =? i) && (j' =? j) && (k' =? k) && (n' =? n).

(** [a(i,j,k,n) = v], write through the view *)
Definition set (a : Array4) (i j k n : Z) (v : R) : Array4 :=
  mkArray4 (a_begin a) (a_end a) (ncomp a)
    (fun i' j' k' n' =>
       if same_cell i j k n i' j' k' n' then v else content a i' j' k' n').


End Amrex.

Import Amrex.

(** [AMREX_SPACEDIM] *)
Inductive SpaceDim : Type := SPACEDIM_2 | SPACEDIM_3.

(** The values [0, 1, ..., n-1] of a loop counter [for (m = 0; m < n; ++m)] *)
Definition counter (n : Z) : list Z := map Z.of_nat (seq 0 (Z.to_nat n)).

(** ** InterpolateDensityFineToCoarse *)

Module InterpolateDensityFineToCoarse.

Local Open Scope R_scope.

Record t : Type := mk {
  m_fine : Array4;
  m_coarse : Array4;
  m_refinement_ratio : Z;
  m_number_of_components : Z
}.

(** The constructor.  [BL_ASSERT] aborts when assertions are compiled in
    and the condition is false; it expands to nothing otherwise. *)
Definition construct (assertions : bool)
    (fine coarse : Array4) (refinement_ratio number_of_components : Z)
    : option t :=
  if assertions && negb (refinement_ratio =? 2)%Z then None
  else Some (mk fine coarse refinement_ratio number_of_components).

(** The lambda [fine] of [operator()]: zero outside the fine view. *)
Definition fine (fine_unsafe : Array4) (j k l m : Z) : R :=
  if contains fine_unsafe j k l then get fine_unsafe j k l m else 0.

(** Right-hand side of the assignment under [AMREX_SPACEDIM == 2] *)
Definition rhs2 (f : Z -> Z -> Z -> Z -> R) (ii jj kk m : Z) : R :=
  0.25 * (
    f ii jj kk m +
    0.5 * (
      f (ii-1)%Z jj kk m + f (ii+1)%Z jj kk m +
      f ii (jj-1)%Z kk m + f ii (jj+1)%Z kk m
    ) +
    0.25 * (
      f (ii-1)%Z (jj-1)%Z kk m + f (ii+1)%Z (jj-1)%Z kk m +
      f (ii-1)%Z (jj+1)%Z kk m + f (ii+1)%Z (jj+1)%Z kk m
    )
  ).

(** Right-hand side of the assignment under [AMREX_SPACEDIM == 3] *)
Definition rhs3 (f : Z -> Z -> Z -> Z -> R) (ii jj kk m : Z) : R :=
  0.125 * (
    f ii jj kk m +
    0.5 * (
      f (ii-1)%Z jj kk m + f (ii+1)%Z jj kk m +
      f ii (jj-1)%Z kk m + f ii (jj+1)%Z kk m +
      f ii jj (kk-1)%Z m + f ii jj (kk+1)%Z m
    ) +
    0.25 * (
      f (ii-1)%Z (jj-1)%Z kk m + f (ii+1)%Z (jj-1)%Z kk m +
      f (ii-1)%Z (jj+1)%Z kk m + f (ii+1)%Z (jj+1)%Z kk m +
      f (ii-1)%Z jj (kk-1)%Z m + f (ii+1)%Z jj (kk-1)%Z m +
      f (ii-1)%Z jj (kk+1)%Z m + f (ii+1)%Z jj (kk+1)%Z m +
      f ii (jj-1)%Z (kk-1)%Z m + f ii (jj+1)%Z (kk-1)%Z m +
      f ii (jj-1)%Z (kk+1)%Z m + f ii (jj+1)%Z (kk+1)%Z m
    ) +
    0.125 * (
      f (ii-1)%Z (jj-1)%Z (kk-1)%Z m + f (ii-1)%Z (jj-1)%Z (kk+1)%Z m +
      f (ii-1)%Z (jj+1)%Z (kk-1)%Z m + f (ii-1)%Z (jj+1)%Z (kk+1)%Z m +
      f (ii+1)%Z (jj-1)%Z (kk-1)%Z m + f (ii+1)%Z (jj-1)%Z (kk+1)%Z m +
      f (ii+1)%Z (jj+1)%Z (kk-1)%Z m + f (ii+1)%Z (jj+1)%Z (kk+1)%Z m
    )
  ).

Definition rhs (d : SpaceDim) : (Z -> Z -> Z -> Z -> R) -> Z -> Z -> Z -> Z -> R :=
  match d with SPACEDIM_2 => rhs2 | SPACEDIM_3 => rhs3 end.

(** Third index of the coarse cell that is assigned: the 2-D branch
    writes [coarse(i,j,kk,m)], the 3-D branch [coarse(i,j,k,m)]. *)
Definition target_k (d : SpaceDim) (k kk : Z) : Z :=
  match d with SPACEDIM_2 => kk | SPACEDIM_3 => k end.

(** One iteration of the loop over components *)
Definition body (d : SpaceDim) (fine_unsafe : Array4) (i j k ii jj kk : Z)
    (coarse : Array4) (m : Z) : Array4 :=
  set coarse i j (target_k d k kk) m (rhs d (fine fine_unsafe) ii jj kk m).

(** [operator()(i,j,k)]: the coarse view after the call.  The fine view
    is read-only ([Array4<Real const>]) and is returned as it was. *)
Definition call (d : SpaceDim) (self : t) (i j k : Z) : t :=
  let ii := (i * m_refinement_ratio self)%Z in
  let jj := (j * m_refinement_ratio self)%Z in
  let kk := (k * m_refinement_ratio self)%Z in
  mk (m_fine self)
     (fold_left (body d (m_fine self) i j k ii jj kk)
                (counter (m_number_of_components self)) (m_coarse self))
     (m_refinement_ratio self)
     (m_number_of_components self).

End InterpolateDensityFineToCoarse.

(** ** CartesianNodalAlgorithm *)

(** [WARPX_DIM_3D] / [WARPX_DIM_XZ] *)
Inductive WarpXDim : Type := WARPX_DIM_3D | WARPX_DIM_XZ.

Module CartesianNodalAlgorithm.

Local Open Scope R_scope.

(** [amrex::Gpu::ManagedVector<Real>] and the [Real const*] obtained from
    it are lists of reals. *)
Definition ManagedVector : Type := list R.



(** [p[n]].  Reading past the end is undefined in C++; the model reads 0. *)
Definition read (p : ManagedVector) (n : nat) : R := nth n p 0.




Definition UpwardDx (F : Array4) (coefs_x : ManagedVector) (n_coefs_x : Z)
    (i j k : Z) : R :=
  let inv_dx := read coefs_x 0 in
  0.5 * inv_dx * (get0 F (i+1)%Z j k - get0 F (i-1)%Z j k).

Definition DownwardDx (F : Array4) (coefs_x : ManagedVector) (n_coefs_x : Z)
    (i j k : Z) : R :=
  UpwardDx F coefs_x n_coefs_x i j k.

Definition UpwardDy (d : WarpXDim) (F : Array4) (coefs_y : ManagedVector)
    (n_coefs_y : Z) (i j k : Z) : R :=
  match d with
  | WARPX_DIM_3D =>
      let inv_dy := read coefs_y 0 in
      0.5 * inv_dy * (get0 F i (j+1)%Z k - get0 F i (j-1)%Z k)
  | WARPX_DIM_XZ => 0
  end.

Definition DownwardDy (d : WarpXDim) (F : Array4) (coefs_y : ManagedVector)
    (n_coefs_y : Z) (i j k : Z) : R :=
  UpwardDy d F coefs_y n_coefs_y i j k.

Definition UpwardDz (d : WarpXDim) (F : Array4) (coefs_z : ManagedVector)
    (n_coefs_z : Z) (i j k : Z) : R :=
  let inv_dz := read coefs_z 0 in
  match d with
  | WARPX_DIM_3D => 0.5 * inv_dz * (get0 F i j (k+1)%Z - get0 F i j (k-1)%Z)
  | WARPX_DIM_XZ => 0.5 * inv_dz * (get0 F i (j+1)%Z k - get0 F i (j-1)%Z k)
  end.

Definition DownwardDz (d : WarpXDim) (F : Array4) (coefs_z : ManagedVector)
    (n_coefs_z : Z) (i j k : Z) : R :=
  UpwardDz d F coefs_z n_coefs_z i j k.


End CartesianNodalAlgorithm.

(** ** PsatdAlgorithmRZ *)

Module PsatdAlgorithmRZ.

Local Open Scope R_scope.

(** [SpectralCoefficients]: one real per spectral mode. *)
Definition SpectralCoefficients : Type := list R.

(** The private members declared in [PsatdAlgorithmRZ.H]. *)
Record t : Type := mk {
  coefficients_initialized : bool;
  dt : R;
  C_coef : SpectralCoefficients;
  S_ck_coef : SpectralCoefficients;
  X1_coef : SpectralCoefficients;
  X2_coef : SpectralCoefficients;
  X3_coef : SpectralCoefficients
}.

(** The five coefficient tables of an algorithm object *)
Definition tables (a : t) : list SpectralCoefficients :=
  [C_coef a; S_ck_coef a; X1_coef a; X2_coef a; X3_coef a].

(** Assignment to the member [dt] *)
Definition with_dt (a : t) (dt' : R) : t :=
  mk (coefficients_initialized a) dt'
     (C_coef a) (S_ck_coef a) (X1_coef a) (X2_coef a) (X3_coef a).

Section Coefficients.

(** The spectral field data, the modified wavenumbers it is laid out on,
    the speed of light, and the source-term coefficients, for which the
    specification gives no formula. *)
Variable SpectralFieldDataRZ : Type.
Variable modified_k : SpectralFieldDataRZ -> list R.
Variable c : R.
Variable X1 X2 X3 : R -> R -> R.

(** Modelled from the spec: the constructor of [PsatdAlgorithmRZ], whose
    body is in [PsatdAlgorithmRZ.cpp]; the header only declares it.  The
    object starts in the state Uninitialized with [dt_step] saved. *)
Definition construct (dt_step : R) : t :=
  mk false dt_step [] [] [] [] [].

(** Modelled from the spec: the body of [InitializeSpectralCoefficients],
    which is in [PsatdAlgorithmRZ.cpp]; the header only declares it.
    Following section 4.3: the first call computes, per mode,
    C = cos(c k dt) and S_ck = sin(c k dt)/(c k) and the source-term
    coefficients, and moves to CoefficientsReady; a call in that state
    does nothing. *)
Definition InitializeSpectralCoefficients (a : t) (f : SpectralFieldDataRZ) : t :=
  if coefficients_initialized a then a
  else
    let ks := modified_k f in
    mk true (dt a)
       (map (fun k => cos (c * k * dt a)) ks)
       (map (fun k => sin (c * k * dt a) / (c * k)) ks)
       (map (X1 (dt a)) ks)
       (map (X2 (dt a)) ks)
       (map (X3 (dt a)) ks).

End Coefficients.

End PsatdAlgorithmRZ.

(** ** guardCellManager *)

Module guardCellManager.

(** [amrex::IntVect] *)
Record IntVect : Type := mkIntVect { vx : Z; vy : Z; vz : Z }.

Definition TheZeroVector : IntVect := mkIntVect 0 0 0.

(** [IntVect::max], component by component *)
Definition vmax (a b : IntVect) : IntVect :=
  mkIntVect (Z.max (vx a) (vx b)) (Z.max (vy a) (vy b)) (Z.max (vz a) (vz b)).

(** Component-wise order on width vectors *)
Definition vle (a b : IntVect) : Prop :=
  vx a <= vx b /\ vy a <= vy b /\ vz a <= vz b.

(** The arguments of [Init] other than [safe_guard_cells]. *)
Record Options : Type := mkOptions {
  do_subcycling : bool;
  do_fdtd_nci_corr : bool;
  do_nodal : bool;
  do_moving_window : bool;
  aux_is_nodal : bool;
  moving_window_dir : Z;
  nox : Z;
  nox_fft : Z;
  noy_fft : Z;
  noz_fft : Z;
  nci_corr_stencil : Z;
  maxwell_fdtd_solver_id : Z;
  max_level : Z;
  v_galilean : R * R * R
}.

(** The members of the class, all zero vectors until [Init] fills them. *)
Record t : Type := mk {
  ng_alloc_EB : IntVect;
  ng_alloc_J : IntVect;
  ng_alloc_Rho : IntVect;
  ng_alloc_F : IntVect;
  ng_FieldSolver : IntVect;
  ng_FieldSolverF : IntVect;
  ng_FieldGather : IntVect;
  ng_UpdateAux : IntVect;
  ng_MovingWindow : IntVect;
  ng_Extra : IntVect
}.

(** Names of the members, to speak about all of them at once. *)
Inductive Width : Type :=
  | AllocEB | AllocJ | AllocRho | AllocF
  | FieldSolver | FieldSolverF | FieldGather
  | UpdateAux | MovingWindow | Extra.

Definition member (w : Width) (g : t) : IntVect :=
  match w with
  | AllocEB => ng_alloc_EB g
  | AllocJ => ng_alloc_J g
  | AllocRho => ng_alloc_Rho g
  | AllocF => ng_alloc_F g
  | FieldSolver => ng_FieldSolver g
  | FieldSolverF => ng_FieldSolverF g
  | FieldGather => ng_FieldGather g
  | UpdateAux => ng_UpdateAux g
  | MovingWindow => ng_MovingWindow g
  | Extra => ng_Extra g
  end.

Section Planner.

(** The features that ask for halo data, which of them a configuration
    enables, and the halo each asks for in each width vector.  The
    specification names the features and gives no formula for the widths. *)
Variable Feature : Type.
Variable supported : list Feature.
Variable enabled : Options -> Feature -> bool.
Variable required : Options -> Feature -> Width -> IntVect.

(** Modelled from the spec: how [guardCellManager::Init] computes one width
    vector; its body is in [GuardCellManager.cpp] and the header only
    declares it.  Following section 4.1: each width is the maximum over
    the features that require halo data at that stage, starting from the
    zero vector so that no component is negative; with [safe_guard_cells]
    the maximum runs over every supported feature, enabled or not. *)
Definition width (o : Options) (safe_guard_cells : bool) (w : Width) : IntVect :=
  fold_right
    (fun f acc =>
       if safe_guard_cells || enabled o f then vmax (required o f w) acc else acc)
    TheZeroVector supported.

(** Modelled from the spec: [guardCellManager::Init], declared in the
    header with its body in [GuardCellManager.cpp]: it fills every member
    with its width. *)
Definition Init (o : Options) (safe_guard_cells : bool) : t :=
  let ng := width o safe_guard_cells in
  mk (ng AllocEB) (ng AllocJ) (ng AllocRho) (ng AllocF)
     (ng FieldSolver) (ng FieldSolverF) (ng FieldGather)
     (ng UpdateAux) (ng MovingWindow) (ng Extra).

End Planner.

End guardCellManager.

(** ** The restriction stencil in the words of the specification *)

Module Stencil.

Local Open Scope R_scope.

(** Number of spatial dimensions selected by [AMREX_SPACEDIM] *)
Definition dimension (d : SpaceDim) : nat :=
  match d with SPACEDIM_2 => 2 | SPACEDIM_3 => 3 end.

Definition offsets : list Z := [-1; 0; 1]%Z.

(** Offsets of the fine cells around the centre: the centre itself and
    its face, edge and corner neighbours. *)
Definition neighbours (d : SpaceDim) : list (Z * Z * Z) :=
  match d with
  | SPACEDIM_2 =>
      flat_map (fun a => map (fun b => (a, b, 0%Z)) offsets) offsets
  | SPACEDIM_3 =>
      flat_map (fun a =>
        flat_map (fun b => map (fun c => (a, b, c)) offsets) offsets) offsets
  end.

(** The shell of an offset: how many of its coordinates are off-centre
    (0 centre, 1 face, 2 edge, 3 corner). *)
Definition shell (o : Z * Z * Z) : nat :=
  let '(a, b, c) := o in
  ((if (a =? 0)%Z then 0 else 1) + (if (b =? 0)%Z then 0 else 1) +
   (if (c =? 0)%Z then 0 else 1))%nat.

(** Binomial weight of a cell in shell [s]: 2^-(d+s). *)
Definition binomial_weight (d : SpaceDim) (s : nat) : R :=
  (/ 2) ^ (dimension d + s).

(** The weights as the specification writes them: 2^(-d) for the centre
    and 2^(-d+1) for the first neighbour shell. *)
Definition stated_weight (d : SpaceDim) (s : nat) : R :=
  match s with
  | O => powerRZ 2 (- Z.of_nat (dimension d))
  | _ => powerRZ 2 (- Z.of_nat (dimension d) + 1)
  end.

Definition Rsum (l : list R) : R := fold_right Rplus 0 l.

(** Weighted sum of the values [x o] with the weights [w o] *)
Definition weighted_sum {A : Type} (w x : A -> R) (l : list A) : R :=
  Rsum (map (fun o => w o * x o) l).

(** Fine cell at offset [o] from the centre (ii, jj, kk) *)
Definition shift (ii jj kk : Z) (o : Z * Z * Z) : Z * Z * Z :=
  let '(a, b, c) := o in ((ii + a)%Z, (jj + b)%Z, (kk + c)%Z).

Definition at_cell (f : Z -> Z -> Z -> Z -> R) (m : Z) (c : Z * Z * Z) : R :=
  let '(x, y, z) := c in f x y z m.

(** The fine cells of the footprint of the coarse cell whose refined
    index is (ii, jj, kk) *)
Definition footprint (d : SpaceDim) (ii jj kk : Z) : list (Z * Z * Z) :=
  map (shift ii jj kk) (neighbours d).

(** Binomially weighted average over the footprint *)
Definition weighted_average (d : SpaceDim) (f : Z -> Z -> Z -> Z -> R)
    (ii jj kk m : Z) : R :=
  weighted_sum (fun o => binomial_weight d (shell o))
               (fun o => at_cell f m (shift ii jj kk o)) (neighbours d).

(** The weight the kernel gives to the fine cell at offset [o]: its
    response to a field that is 1 at that cell and 0 elsewhere. *)
Definition kernel_weight (d : SpaceDim) (o : Z * Z * Z) : R :=
  InterpolateDensityFineToCoarse.rhs d
    (fun i j k _ => let '(a, b, c) := o in
                    if (i =? a)%Z && (j =? b)%Z && (k =? c)%Z then 1 else 0)
    0 0 0 0.

End Stencil.

(** ** Derived notions used in the statements *)

Module IDFC := InterpolateDensityFineToCoarse.
Module CNA := CartesianNodalAlgorithm.
Module GCM := guardCellManager.

(** Third index of the coarse cell written by [operator()(i,j,k)] *)
Definition written_k (d : SpaceDim) (self : IDFC.t) (k : Z) : Z :=
  IDFC.target_k d k (k * IDFC.m_refinement_ratio self).

(** The value found in the coarse view at the written cell, component
    [m], after [operator()(i,j,k)] *)
Definition restricted (d : SpaceDim) (self : IDFC.t) (i j k m : Z) : R :=
  get (IDFC.m_coarse (IDFC.call d self i j k)) i j (written_k d self k) m.

(** The fine footprint of coarse cell (i, j, k) *)
Definition fine_footprint (d : SpaceDim) (self : IDFC.t) (i j k : Z)
    : list (Z * Z * Z) :=
  Stencil.footprint d (i * IDFC.m_refinement_ratio self)
                      (j * IDFC.m_refinement_ratio self)
                      (k * IDFC.m_refinement_ratio self).

Definition inside (a : Array4) (c : Z * Z * Z) : bool :=
  let '(x, y, z) := c in contains a x y z.

(** A coarse cell is interior when its whole footprint lies in the fine
    view. *)
Definition interior (d : SpaceDim) (self : IDFC.t) (i j k : Z) : bool :=
  forallb (inside (IDFC.m_fine self)) (fine_footprint d self i j k).

(** The view [a] with the content [alpha * a + beta * b] *)
Definition axpby (alpha : R) (a : Array4) (beta : R) (b : Array4) : Array4 :=
  mkArray4 (a_begin a) (a_end a) (ncomp a)
    (fun i j k n => (alpha * content a i j k n + beta * content b i j k n)%R).

(** A view with the same content [v] in every cell and component *)
Definition uniform (lo hi : Dim3) (n : Z) (v : R) : Array4 :=
  mkArray4 lo hi n (fun _ _ _ _ => v).

(** With [AMREX_SPACEDIM == 2] the kernel is launched over a flat index
    space: the third index is 0. *)
Definition launch_index (d : SpaceDim) (k : Z) : Prop :=
  match d with SPACEDIM_2 => k = 0 | SPACEDIM_3 => True end.

(** ** Concrete patches *)

Module Patches.

Local Open Scope R_scope.

(** A 3 x 3 x 3 fine box around the origin and the single coarse cell at
    the origin. *)
Definition fine_lo : Dim3 := mkDim3 (-1) (-1) (-1).
Definition fine_hi : Dim3 := mkDim3 2 2 2.
Definition coarse_lo : Dim3 := mkDim3 0 0 0.
Definition coarse_hi : Dim3 := mkDim3 1 1 1.

(** The same in two dimensions: 3 x 3 fine cells, z-range [0, 1). *)
Definition fine_lo2 : Dim3 := mkDim3 (-1) (-1) 0.
Definition fine_hi2 : Dim3 := mkDim3 2 2 1.

Definition zero_coarse : Array4 := uniform coarse_lo coarse_hi 1 0.

(** Fine field that is 1 at the face neighbour (1, 0, 0) of the centre
    and 0 elsewhere. *)
Definition face_pulse : Array4 :=
  mkArray4 fine_lo fine_hi 1
    (fun i j k n => if same_cell 1 0 0 0 i j k n then 1 else 0).

Definition face_pulse_op : IDFC.t := IDFC.mk face_pulse zero_coarse 2 1.

(** Uniform fine field of value 5 over the 3-D box. *)
Definition five : Array4 := uniform fine_lo fine_hi 1 5.
Definition five_op : IDFC.t := IDFC.mk five zero_coarse 2 1.

(** Uniform fine field of value 5 over the 2-D box. *)
Definition five2 : Array4 := uniform fine_lo2 fine_hi2 1 5.
Definition five2_op : IDFC.t := IDFC.mk five2 zero_coarse 2 1.

End Patches.


(** ** Sweeps of the restriction kernel *)

(** [operator()] called at each coarse index of a list in turn, as a
    loop over the cells of a box does. *)
Definition sweep (d : SpaceDim) (self : IDFC.t) (cells : list (Z * Z * Z)) : IDFC.t :=
  fold_left (fun s c => let '(i, j, k) := c in IDFC.call d s i j k) cells self.

Definition cell_eqb (a b : Z * Z * Z) : bool :=
  let '(i, j, k) := a in
  let '(i', j', k') := b in (i =? i') && (j =? j') && (k =? k').

(** ** SpeciesPhysicalProperties *)

Module species.

Import String.
Local Open Scope string_scope.

Inductive PhysicalSpecies : Type :=
  | unspecified | electron | positron | photon | hydrogen.

(** [species::from_string].  [amrex::Abort] ends the run: [None]. *)
Definition from_string (species : string) : option PhysicalSpecies :=
  if species =? "unspecified" then Some unspecified
  else if species =? "electron" then Some electron
  else if species =? "positron" then Some positron
  else if species =? "photon" then Some photon
  else if species =? "hydrogen" then Some hydrogen
  else None.

(** The name under which [from_string] knows each species *)
Definition name (ps : PhysicalSpecies) : string :=
  match ps with
  | unspecified => "unspecified"
  | electron => "electron"
  | positron => "positron"
  | photon => "photon"
  | hydrogen => "hydrogen"
  end.

(** An [amrex::Real] that may be the quiet NaN *)
Inductive Real : Type := quiet_NaN | num (r : R).

Section Constants.

Local Open Scope R_scope.

(** [PhysConst::q_e], [PhysConst::m_e] and [PhysConst::m_p], declared in
    [Utils/WarpXConst.H] *)
Variables q_e m_e m_p : R.

(** [species::get_charge].  The [default] branch of the switch is taken
    by no enumerator. *)
Definition get_charge (ps : PhysicalSpecies) : Real :=
  match ps with
  | unspecified => quiet_NaN
  | electron => num (- q_e)
  | positron => num q_e
  | photon => num 0
  | hydrogen => num q_e
  end.

(** [species::get_mass] *)
Definition get_mass (ps : PhysicalSpecies) : Real :=
  match ps with
  | unspecified => quiet_NaN
  | electron => num m_e
  | positron => num m_e
  | photon => num 0
  | hydrogen => num m_p
  end.

End Constants.

End species.

(** ** QEDPhotonEmission *)

Module QEDPhotonEmission.

Local Open Scope R_scope.

(** [a < b] on [amrex::Real] *)
Definition Rltb (a b : R) : bool := if Rlt_dec a b then true else false.

(** The particle data reached through a tile: the real attributes
    [m_rdata[comp][i]], the run-time real attributes
    [m_runtime_rdata[comp][i]] and the identifier [id()] of each particle
    of the array of structs. *)
Record TileData : Type := mkTile {
  m_rdata : Z -> Z -> R;
  m_runtime_rdata : Z -> Z -> R;
  id : Z -> Z
}.

(** [t.m_rdata[comp][i] = v] *)
Definition set_rdata (t : TileData) (comp i : Z) (v : R) : TileData :=
  mkTile (fun c p => if (c =? comp)%Z && (p =? i)%Z then v else m_rdata t c p)
         (m_runtime_rdata t) (id t).

(** [t.m_runtime_rdata[comp][i] = v] *)
Definition set_runtime_rdata (t : TileData) (comp i : Z) (v : R) : TileData :=
  mkTile (m_rdata t)
         (fun c p => if (c =? comp)%Z && (p =? i)%Z then v
                     else m_runtime_rdata t c p)
         (id t).

(** [p.id() = v] for the particle at index [i] *)
Definition set_id (t : TileData) (i : Z) (v : Z) : TileData :=
  mkTile (m_rdata t) (m_runtime_rdata t)
         (fun p => if (p =? i)%Z then v else id t p).

(** The enumerators of [PIdx] that the code uses; the enumeration is
    declared in [Particles/WarpXParticleContainer.H]. *)
Record PIdx : Type := mkPIdx {
  w : Z; ux : Z; uy : Z; uz : Z;
  Ex : Z; Ey : Z; Ez : Z; Bx : Z; By : Z; Bz : Z
}.

(** [PhotonEmissionFilterFunc::operator()] *)
Definition filter (m_opt_depth_runtime_comp : Z) (ptd : TileData) (i : Z) : bool :=
  let opt_depth := m_runtime_rdata ptd m_opt_depth_runtime_comp i in
  Rltb opt_depth 0.

(** What one call of the emission functor leaves behind its pointer
    arguments: the updated momentum of the source and the momentum and
    weight of the photon. *)
Record Emitted : Type := mkEmitted {
  e_px : R; e_py : R; e_pz : R;
  e_g_px : R; e_g_py : R; e_g_pz : R; e_g_w : R
}.

Section Transform.

Variable P : PIdx.

(** [PhysConst::m_e] and [PhysConst::c], declared in [Utils/WarpXConst.H] *)
Variables m_e c : R.

(** The functors of [QEDInternals/QuantumSyncEngineWrapper.H]: the
    emission functor as a function of the values it is called with (the
    photon outputs start at 0), and the value that the optical-depth
    functor returns on this call. *)
Variable m_emission_functor :
  R -> R -> R -> R -> R -> R -> R -> R -> R -> R -> Emitted.
Variable m_opt_depth_functor : R.
Variable m_opt_depth_runtime_comp : Z.

(** [PhotonEmissionTransformFunc::operator()]: the target and the source
    after the call. *)
Definition transform (dst src : TileData) (i_src i_dst : Z)
    : TileData * TileData :=
  let me := m_e in
  let one_over_me := 1 / me in
  let w_ := m_rdata src (w P) i_src in
  let ux_ := m_rdata src (ux P) i_src in
  let uy_ := m_rdata src (uy P) i_src in
  let uz_ := m_rdata src (uz P) i_src in
  let ex := m_rdata src (Ex P) i_src in
  let ey := m_rdata src (Ey P) i_src in
  let ez := m_rdata src (Ez P) i_src in
  let bx := m_rdata src (Bx P) i_src in
  let by_ := m_rdata src (By P) i_src in
  let bz := m_rdata src (Bz P) i_src in
  let px := ux_ * me in
  let py := uy_ * me in
  let pz := uz_ * me in
  let e := m_emission_functor px py pz ex ey ez bx by_ bz w_ in
  let src := set_rdata src (ux P) i_src (e_px e * one_over_me) in
  let src := set_rdata src (uy P) i_src (e_py e * one_over_me) in
  let src := set_rdata src (uz P) i_src (e_pz e * one_over_me) in
  let dst := set_rdata dst (w P) i_dst (e_g_w e) in
  let dst := set_rdata dst (ux P) i_dst (e_g_px e * one_over_me) in
  let dst := set_rdata dst (uy P) i_dst (e_g_py e * one_over_me) in
  let dst := set_rdata dst (uz P) i_dst (e_g_pz e * one_over_me) in
  let src := set_runtime_rdata src m_opt_depth_runtime_comp i_src
               m_opt_depth_functor in
  (dst, src).

(** The square of the photon energy computed by the kernel of
    [cleanLowEnergyPhotons] for the particle at index [p] *)
Definition phot_energy2 (ptile : TileData) (p : Z) : R :=
  let ux_ := m_rdata ptile (ux P) p in
  let uy_ := m_rdata ptile (uy P) p in
  let uz_ := m_rdata ptile (uz P) p in
  let me_c := m_e * c in
  (ux_ * ux_ + uy_ * uy_ + uz_ * uz_) * me_c * me_c.

(** One iteration of the loop of [cleanLowEnergyPhotons] *)
Definition clean_one (old_size : Z) (energy_threshold2 : R)
    (ptile : TileData) (ip : Z) : TileData :=
  if Rltb (phot_energy2 ptile (old_size + ip)) energy_threshold2
  then set_id ptile (old_size + ip) (-1)
  else ptile.

(** [cleanLowEnergyPhotons] *)
Definition cleanLowEnergyPhotons (ptile : TileData) (old_size num_added : Z)
    (energy_threshold : R) : TileData :=
  let energy_threshold2 := energy_threshold * energy_threshold in
  fold_left (clean_one old_size energy_threshold2) (counter num_added) ptile.

End Transform.

End QEDPhotonEmission.

Module QPE := QEDPhotonEmission.

(** ** Concrete particles *)

Module Particles.

Local Open Scope R_scope.

(** Attribute indices in the order of the enumeration *)
Definition pidx : QPE.PIdx := QPE.mkPIdx 0 1 2 3 4 5 6 7 8 9.

(** A tile in which every attribute of every particle is 1 and every
    identifier is 1 *)
Definition ones : QPE.TileData :=
  QPE.mkTile (fun _ _ => 1) (fun _ _ => 1) (fun _ => 1%Z).

(** An emission in which the photon takes the whole momentum and the
    weight of the source *)
Definition take_all (px py pz ex ey ez bx by_ bz w : R) : QPE.Emitted :=
  QPE.mkEmitted 0 0 0 px py pz w.

End Particles.

(** ** The restriction class over an arbitrary arithmetic *)

(** [InterpolateDensityFineToCoarse] once more, with [amrex::Real] and
    its operations taken from a record: the same expression is evaluated
    over the exact reals, where it is the definition above, and over
    binary64, where every operation rounds as the compiled code does. *)
Module Kernel.

Record Arith : Type := mkArith {
  T : Type;
  add : T -> T -> T;
  mul : T -> T -> T;
  zero : T;
  c0_5 : T;
  c0_25 : T;
  c0_125 : T
}.

(** [amrex::Array4<Real>] over the values of an arithmetic *)
Record Array4 (A : Arith) : Type := mkArray4 {
  a_begin : Dim3;
  a_end : Dim3;
  ncomp : Z;
  content : Z -> Z -> Z -> Z -> T A
}.

Arguments mkArray4 {A}.
Arguments a_begin {A}.
Arguments a_end {A}.
Arguments ncomp {A}.
Arguments content {A}.

Record t (A : Arith) : Type := mk {
  m_fine : Array4 A;
  m_coarse : Array4 A;
  m_refinement_ratio : Z;
  m_number_of_components : Z
}.

Arguments mk {A}.
Arguments m_fine {A}.
Arguments m_coarse {A}.
Arguments m_refinement_ratio {A}.
Arguments m_number_of_components {A}.

Section Class.

Variable A : Arith.

Declare Scope arith_scope.
Local Notation "x + y" := (add A x y) : arith_scope.
Local Notation "x * y" := (mul A x y) : arith_scope.
Local Open Scope arith_scope.

(** [Array4::contains(i,j,k)] *)
Definition contains (a : Array4 A) (i j k : Z) : bool :=
  ((dx (a_begin a) <=? i) && (i <? dx (a_end a)) &&
   (dy (a_begin a) <=? j) && (j <? dy (a_end a)) &&
   (dz (a_begin a) <=? k) && (k <? dz (a_end a)))%Z.

(** [Array4::operator()(i,j,k,n)], read *)
Definition get (a : Array4 A) (i j k n : Z) : T A := content a i j k n.

(** [a(i,j,k,n) = v] *)
Definition set (a : Array4 A) (i j k n : Z) (v : T A) : Array4 A :=
  mkArray4 (a_begin a) (a_end a) (ncomp a)
    (fun i' j' k' n' =>
       if same_cell i j k n i' j' k' n' then v else content a i' j' k' n').

(** The lambda [fine] of [operator()] *)
Definition fine (fine_unsafe : Array4 A) (j k l m : Z) : T A :=
  if contains fine_unsafe j k l then get fine_unsafe j k l m else zero A.

(** Right-hand side of the assignment under [AMREX_SPACEDIM == 2] *)
Definition rhs2 (f : Z -> Z -> Z -> Z -> T A) (ii jj kk m : Z) : T A :=
  c0_25 A * (
    f ii jj kk m +
    c0_5 A * (
      f (ii-1)%Z jj kk m + f (ii+1)%Z jj kk m +
      f ii (jj-1)%Z kk m + f ii (jj+1)%Z kk m
    ) +
    c0_25 A * (
      f (ii-1)%Z (jj-1)%Z kk m + f (ii+1)%Z (jj-1)%Z kk m +
      f (ii-1)%Z (jj+1)%Z kk m + f (ii+1)%Z (jj+1)%Z kk m
    )
  ).

(** Right-hand side of the assignment under [AMREX_SPACEDIM == 3] *)
Definition rhs3 (f : Z -> Z -> Z -> Z -> T A) (ii jj kk m : Z) : T A :=
  c0_125 A * (
    f ii jj kk m +
    c0_5 A * (
      f (ii-1)%Z jj kk m + f (ii+1)%Z jj kk m +
      f ii (jj-1)%Z kk m + f ii (jj+1)%Z kk m +
      f ii jj (kk-1)%Z m + f ii jj (kk+1)%Z m
    ) +
    c0_25 A * (
      f (ii-1)%Z (jj-1)%Z kk m + f (ii+1)%Z (jj-1)%Z kk m +
      f (ii-1)%Z (jj+1)%Z kk m + f (ii+1)%Z (jj+1)%Z kk m +
      f (ii-1)%Z jj (kk-1)%Z m + f (ii+1)%Z jj (kk-1)%Z m +
      f (ii-1)%Z jj (kk+1)%Z m + f (ii+1)%Z jj (kk+1)%Z m +
      f ii (jj-1)%Z (kk-1)%Z m + f ii (jj+1)%Z (kk-1)%Z m +
      f ii (jj-1)%Z (kk+1)%Z m + f ii (jj+1)%Z (kk+1)%Z m
    ) +
    c0_125 A * (
      f (ii-1)%Z (jj-1)%Z (kk-1)%Z m + f (ii-1)%Z (jj-1)%Z (kk+1)%Z m +
      f (ii-1)%Z (jj+1)%Z (kk-1)%Z m + f (ii-1)%Z (jj+1)%Z (kk+1)%Z m +
      f (ii+1)%Z (jj-1)%Z (kk-1)%Z m + f (ii+1)%Z (jj-1)%Z (kk+1)%Z m +
      f (ii+1)%Z (jj+1)%Z (kk-1)%Z m + f (ii+1)%Z (jj+1)%Z (kk+1)%Z m
    )
  ).

Definition rhs (d : SpaceDim) : (Z -> Z -> Z -> Z -> T A) -> Z -> Z -> Z -> Z -> T A :=
  match d with SPACEDIM_2 => rhs2 | SPACEDIM_3 => rhs3 end.

(** One iteration of the loop over components *)
Definition body (d : SpaceDim) (fine_unsafe : Array4 A) (i j k ii jj kk : Z)
    (coarse : Array4 A) (m : Z) : Array4 A :=
  set coarse i j (IDFC.target_k d k kk) m (rhs d (fine fine_unsafe) ii jj kk m).

(** [operator()(i,j,k)] *)
Definition call (d : SpaceDim) (self : t A) (i j k : Z) : t A :=
  let ii := (i * m_refinement_ratio self)%Z in
  let jj := (j * m_refinement_ratio self)%Z in
  let kk := (k * m_refinement_ratio self)%Z in
  mk (m_fine self)
     (fold_left (body d (m_fine self) i j k ii jj kk)
                (counter (m_number_of_components self)) (m_coarse self))
     (m_refinement_ratio self)
     (m_number_of_components self).

(** The value found in the coarse view at the written cell, component
    [m], after [operator()(i,j,k)] *)
Definition restricted (d : SpaceDim) (self : t A) (i j k m : Z) : T A :=
  get (m_coarse (call d self i j k)) i j
      (IDFC.target_k d k (k * m_refinement_ratio self)) m.

Definition inside (a : Array4 A) (c : Z * Z * Z) : bool :=
  let '(x, y, z) := c in contains a x y z.

Definition at_cell (f : Z -> Z -> Z -> Z -> T A) (m : Z) (c : Z * Z * Z) : T A :=
  let '(x, y, z) := c in f x y z m.

(** The fine footprint of coarse cell (i, j, k) and the interior cells *)
Definition fine_footprint (d : SpaceDim) (self : t A) (i j k : Z)
    : list (Z * Z * Z) :=
  Stencil.footprint d (i * m_refinement_ratio self)
                      (j * m_refinement_ratio self)
                      (k * m_refinement_ratio self).

Definition interior (d : SpaceDim) (self : t A) (i j k : Z) : bool :=
  forallb (inside (m_fine self)) (fine_footprint d self i j k).

End Class.

(** The arithmetic of exact real numbers *)
Definition reals : Arith :=
  mkArith R Rplus Rmult 0%R 0.5%R 0.25%R 0.125%R.

End Kernel.

(** ** Binary64 arithmetic *)

(** [amrex::Real] in a double-precision build: IEEE 754 binary64 with
    round-to-nearest-even operations. *)
Module Binary64.

Import Floats QArith Qreals.

(** The arithmetic of the compiled code *)
Definition arith : Kernel.Arith :=
  Kernel.mkArith float PrimFloat.add PrimFloat.mul 0%float
                 0.5%float 0.25%float 0.125%float.

Definition Array4 : Type := Kernel.Array4 arith.
Definition t : Type := Kernel.t arith.











(** A view with the same value in every cell and component *)
Definition uniform (lo hi : Dim3) (n : Z) (v : float) : Array4 :=
  Kernel.mkArray4 (A := arith) lo hi n (fun _ _ _ _ => v).

(** The view of [a] with the content [alpha * a + beta * b], computed in
    binary64 *)
Definition axpby (alpha : float) (a : Array4) (beta : float) (b : Array4)
    : Array4 :=
  Kernel.mkArray4 (A := arith) (Kernel.a_begin a) (Kernel.a_end a) (Kernel.ncomp a)
    (fun i j k n =>
       (alpha * Kernel.content a i j k n + beta * Kernel.content b i j k n)%float).



(** The patches of [Patches] with binary64 content *)
Definition zero_coarse : Array4 :=
  uniform Patches.coarse_lo Patches.coarse_hi 1 0%float.


Definition face_pulse : Array4 :=
  Kernel.mkArray4 (A := arith) Patches.fine_lo Patches.fine_hi 1
    (fun i j k n => if same_cell 1 0 0 0 i j k n then 1%float else 0%float).


End Binary64.

(** ** A flat launch with a third index *)

Module Flat.


End Flat.

(** * Properties *)

(** ** Loop counter and writes through a view *)

Lemma counter_In (n m : Z) : In m (counter n) <-> 0 <= m < n.
Proof.
  unfold counter. rewrite in_map_iff. split.
  - intros [q [Hq Hin]]. apply in_seq in Hin. lia.
  - intros H. exists (Z.to_nat m). split; [lia |]. apply in_seq. lia.
Qed.

Lemma existsb_eqb_In (m : Z) (l : list Z) :
  existsb (Z.eqb m) l = true <-> In m l.
Proof.
  rewrite existsb_exists. split.
  - intros [y [Hin Heq]]. apply Z.eqb_eq in Heq. now subst.
  - intros Hin. exists m. split; [assumption | apply Z.eqb_refl].
Qed.

Lemma get_set (a : Array4) (i j k n i' j' k' n' : Z) (v : R) :
  get (set a i j k n v) i' j' k' n' =
  if same_cell i j k n i' j' k' n' then v else get a i' j' k' n'.
Proof. reflexivity. Qed.

Lemma same_cell_true (i j k n i' j' k' n' : Z) :
  same_cell i j k n i' j' k' n' = true <-> i' = i /\ j' = j /\ k' = k /\ n' = n.
Proof.
  unfold same_cell. rewrite !andb_true_iff, !Z.eqb_eq. tauto.
Qed.

(** ** The loop of [operator()] *)

Section Loop.

Variable d : SpaceDim.
Variable F : Array4.
Variables i j k ii jj kk : Z.

Let step := IDFC.body d F i j k ii jj kk.
Let kt := IDFC.target_k d k kk.

(** Content of the coarse view after the components [ms] were assigned. *)
Lemma loop_content (ms : list Z) (c : Array4) (i' j' k' n' : Z) :
  get (fold_left step ms c) i' j' k' n' =
  if (i' =? i) && (j' =? j) && (k' =? kt) && existsb (Z.eqb n') ms
  then IDFC.rhs d (IDFC.fine F) ii jj kk n'
  else get c i' j' k' n'.
Proof.
  revert c. induction ms as [| m ms IH]; intros c; simpl.
  - now rewrite andb_false_r.
  - rewrite IH. unfold step, IDFC.body. fold kt. rewrite get_set.
    unfold same_cell.
    destruct (i' =? i) eqn:Ei, (j' =? j) eqn:Ej, (k' =? kt) eqn:Ek; simpl;
      try reflexivity.
    destruct (existsb (Z.eqb n') ms) eqn:Em.
    + now rewrite orb_true_r.
    + rewrite orb_false_r. destruct (n' =? m) eqn:En; [| reflexivity].
      apply Z.eqb_eq in En. now subst.
Qed.


End Loop.

(** What [operator()] leaves in the coarse view: the stencil value in the
    written cell for the components below [m_number_of_components], the
    previous content everywhere else. *)
Lemma call_content (d : SpaceDim) (self : IDFC.t) (i j k i' j' k' n' : Z) :
  let r := IDFC.m_refinement_ratio self in
  get (IDFC.m_coarse (IDFC.call d self i j k)) i' j' k' n' =
  if (i' =? i) && (j' =? j) && (k' =? written_k d self k) &&
     ((0 <=? n') && (n' <? IDFC.m_number_of_components self))
  then IDFC.rhs d (IDFC.fine (IDFC.m_fine self)) (i * r) (j * r) (k * r) n'
  else get (IDFC.m_coarse self) i' j' k' n'.
Proof.
  intros r. unfold IDFC.call. simpl. rewrite loop_content. fold r.
  unfold written_k. fold r.
  replace (existsb (Z.eqb n') (counter (IDFC.m_number_of_components self)))
    with ((0 <=? n') && (n' <? IDFC.m_number_of_components self));
    [reflexivity |].
  apply eq_true_iff_eq.
  rewrite existsb_eqb_In, counter_In, andb_true_iff, Z.leb_le, Z.ltb_lt.
  tauto.
Qed.

Lemma restricted_rhs (d : SpaceDim) (self : IDFC.t) (i j k m : Z) :
  0 <= m < IDFC.m_number_of_components self ->
  let r := IDFC.m_refinement_ratio self in
  restricted d self i j k m =
  IDFC.rhs d (IDFC.fine (IDFC.m_fine self)) (i * r) (j * r) (k * r) m.
Proof.
  intros Hm r. unfold restricted. rewrite call_content. fold r.
  rewrite !Z.eqb_refl. simpl.
  destruct (Z.leb_spec 0 m); [| lia].
  destruct (Z.ltb_spec m (IDFC.m_number_of_components self)); [| lia].
  reflexivity.
Qed.

(** ** Weighted sums *)

Section WeightedSums.

Local Open Scope R_scope.

Context {A : Type}.
Variables w : A -> R.


Lemma weighted_sum_ext (x y : A -> R) (l : list A) :
  (forall o, In o l -> x o = y o) ->
  Stencil.weighted_sum w x l = Stencil.weighted_sum w y l.
Proof.
  unfold Stencil.weighted_sum.
  induction l as [| o l IH]; simpl; intros H; [reflexivity |].
  rewrite (H o), IH; auto.
Qed.

Lemma weighted_sum_const (v : R) (l : list A) :
  Stencil.weighted_sum w (fun _ => v) l = Stencil.Rsum (map w l) * v.
Proof.
  unfold Stencil.weighted_sum.
  induction l as [| o l IH]; simpl; [lra |]. rewrite IH. lra.
Qed.


End WeightedSums.

(** ** The kernel's expression is the binomially weighted average *)

Section StencilShape.

Local Open Scope R_scope.

Ltac normalise_offsets :=
  rewrite ?Z.add_0_r; change (-1)%Z with (Z.opp 1); rewrite ?Z.add_opp_r.

Lemma rhs_weighted_average (d : SpaceDim) (f : Z -> Z -> Z -> Z -> R)
    (ii jj kk m : Z) :
  IDFC.rhs d f ii jj kk m = Stencil.weighted_average d f ii jj kk m.
Proof.
  destruct d;
    unfold IDFC.rhs, IDFC.rhs2, IDFC.rhs3, Stencil.weighted_average,
           Stencil.weighted_sum, Stencil.binomial_weight;
    simpl; normalise_offsets; lra.
Qed.

Lemma total_weight (d : SpaceDim) :
  Stencil.Rsum (map (fun o => Stencil.binomial_weight d (Stencil.shell o))
                    (Stencil.neighbours d)) = 1.
Proof. destruct d; unfold Stencil.binomial_weight; simpl; lra. Qed.

Lemma binomial_weight_nonneg (d : SpaceDim) (s : nat) :
  0 <= Stencil.binomial_weight d s.
Proof. unfold Stencil.binomial_weight. apply pow_le. lra. Qed.

End StencilShape.

(** ** Restriction: shape of the stencil *)

Section RestrictionStencil.

Local Open Scope R_scope.

Lemma kernel_weight_binomial (d : SpaceDim) (o : Z * Z * Z) :
  In o (Stencil.neighbours d) ->
  Stencil.kernel_weight d o = Stencil.binomial_weight d (Stencil.shell o).
Proof.
  destruct d; simpl; intros H;
    repeat (destruct H as [H | H]; [subst o | ]); try contradiction;
    unfold Stencil.kernel_weight, Stencil.binomial_weight, IDFC.rhs,
           IDFC.rhs2, IDFC.rhs3; simpl; lra.
Qed.

(** C1, as the code has it: for every coarse cell and component the
    restriction operator writes the weighted average of the nearest fine
    cell and its face, edge and corner neighbours (zero outside the fine
    view) with the binomial weights 2^-(d+s) for a cell in shell s; the
    centre has weight 2^(-d), the first neighbour shell 2^(-d-1); the
    weights are those the kernel gives to each cell and they sum to 1. *)
Theorem restriction_binomial_average (d : SpaceDim) (self : IDFC.t) (i j k m : Z) :
  (0 <= m < IDFC.m_number_of_components self)%Z ->
  let r := IDFC.m_refinement_ratio self in
  restricted d self i j k m =
    Stencil.weighted_average d (IDFC.fine (IDFC.m_fine self))
                             (i * r) (j * r) (k * r) m
  /\ (forall o, In o (Stencil.neighbours d) ->
        Stencil.kernel_weight d o = Stencil.binomial_weight d (Stencil.shell o))
  /\ Stencil.binomial_weight d 0 = powerRZ 2 (- Z.of_nat (Stencil.dimension d))
  /\ Stencil.binomial_weight d 1 = powerRZ 2 (- Z.of_nat (Stencil.dimension d) - 1)
  /\ Stencil.Rsum (map (fun o => Stencil.binomial_weight d (Stencil.shell o))
                       (Stencil.neighbours d)) = 1.
Proof.
  intros Hm r. repeat split.
  - unfold r. rewrite restricted_rhs by assumption. apply rhs_weighted_average.
  - apply kernel_weight_binomial.
  - destruct d; unfold Stencil.binomial_weight; simpl; lra.
  - destruct d; unfold Stencil.binomial_weight; simpl; lra.
  - apply total_weight.
Qed.

Lemma restriction_binomial_average_witness :
  (0 <= 0 < IDFC.m_number_of_components Patches.face_pulse_op)%Z /\
  restricted SPACEDIM_3 Patches.face_pulse_op 0 0 0 0 =
    Stencil.weighted_average SPACEDIM_3
      (IDFC.fine Patches.face_pulse) 0 0 0 0.
Proof.
  split.
  - simpl. lia.
  - apply (restriction_binomial_average SPACEDIM_3 Patches.face_pulse_op 0 0 0 0).
    simpl. lia.
Defined.

(** C1, as the specification words it, fails: on a fine field that is 1
    at one face neighbour of the centre and 0 elsewhere the operator
    writes 1/16 in three dimensions, so the first neighbour shell has
    weight 2^(-4), not the stated 2^(-d+1) = 1/4. *)
Lemma first_shell_weight_is_not_as_stated :
  restricted SPACEDIM_3 Patches.face_pulse_op 0 0 0 0 = / 16 /\
  Stencil.stated_weight SPACEDIM_3 1 = / 4 /\
  restricted SPACEDIM_3 Patches.face_pulse_op 0 0 0 0
    <> Stencil.stated_weight SPACEDIM_3 1.
Proof.
  assert (H : restricted SPACEDIM_3 Patches.face_pulse_op 0 0 0 0 = / 16).
  { rewrite restricted_rhs by (simpl; lia).
    unfold IDFC.rhs, IDFC.rhs3, IDFC.fine. simpl. lra. }
  assert (S : Stencil.stated_weight SPACEDIM_3 1 = / 4).
  { unfold Stencil.stated_weight. simpl. lra. }
  rewrite H, S. repeat split. lra.
Qed.

End RestrictionStencil.

(** ** Restriction: constant fields, bounds and linearity *)

Section RestrictionValues.

Local Open Scope R_scope.


(** The guarded read is the stored value inside the view and 0 outside. *)
Lemma fine_at_cell (F : Array4) (m : Z) (c : Z * Z * Z) :
  Stencil.at_cell (IDFC.fine F) m c =
  if inside F c then Stencil.at_cell (get F) m c else 0.
Proof. destruct c as [[x y] z]. reflexivity. Qed.





End RestrictionValues.

(** ** Restriction: what a call touches *)

Section RestrictionFrame.

Local Open Scope Z_scope.

Lemma written_k_launch (d : SpaceDim) (self : IDFC.t) (k : Z) :
  launch_index d k -> written_k d self k = k.
Proof.
  unfold written_k, launch_index. destruct d; simpl; intros H; [| reflexivity].
  now subst.
Qed.

(** Without the launch condition the 2-D branch assigns the cell with the
    refined third index. *)
Example flat_branch_target :
  written_k SPACEDIM_2 Patches.five2_op 1 = 2.
Proof. reflexivity. Qed.




(** With assertions compiled in, any other ratio stops in the
    constructor. *)
Lemma construct_rejects (fine coarse : Array4) (ratio n : Z) :
  ratio <> 2 -> IDFC.construct true fine coarse ratio n = None.
Proof.
  intros H. unfold IDFC.construct. apply Z.eqb_neq in H. now rewrite H.
Qed.

(** C8: when the refinement ratio is 2 the constructor's assertion holds
    and the object is built, with or without assertions compiled in; the
    kernel then centres its footprint on the fine cell (2i, 2j, 2k) and
    averages it with weights that sum to 1.  The kernel itself never looks
    at the ratio other than to scale the index: an object carrying any
    ratio r, as built without assertions, is processed all the same, with
    the footprint centred on (r i, r j, r k). *)
Theorem ratio_two_precondition (assertions : bool) (fine coarse : Array4)
    (ratio n : Z) :
  (ratio = 2 ->
   IDFC.construct assertions fine coarse ratio n
     = Some (IDFC.mk fine coarse 2 n) /\
   forall d i j k m, 0 <= m < n ->
     restricted d (IDFC.mk fine coarse 2 n) i j k m =
       Stencil.weighted_average d (IDFC.fine fine) (i * 2) (j * 2) (k * 2) m /\
     fine_footprint d (IDFC.mk fine coarse 2 n) i j k =
       Stencil.footprint d (i * 2) (j * 2) (k * 2) /\
     Stencil.Rsum (map (fun o => Stencil.binomial_weight d (Stencil.shell o))
                       (Stencil.neighbours d)) = 1%R) /\
  (IDFC.construct false fine coarse ratio n
     = Some (IDFC.mk fine coarse ratio n) /\
   forall d i j k m, 0 <= m < n ->
     restricted d (IDFC.mk fine coarse ratio n) i j k m =
       IDFC.rhs d (IDFC.fine fine) (i * ratio) (j * ratio) (k * ratio) m).
Proof.
  split.
  - intros ->. split.
    + unfold IDFC.construct. simpl. now rewrite andb_false_r.
    + intros d i j k m Hm. repeat split.
      * rewrite restricted_rhs by assumption. apply rhs_weighted_average.
      * apply total_weight.
  - split; [reflexivity |].
    intros d i j k m Hm. now rewrite restricted_rhs.
Qed.

Lemma ratio_two_precondition_witness :
  IDFC.construct true Patches.five Patches.zero_coarse 2 1
    = Some Patches.five_op.
Proof.
  destruct (ratio_two_precondition true Patches.five Patches.zero_coarse 2 1)
    as [H _].
  destruct (H eq_refl) as [Hc _]. exact Hc.
Defined.

End RestrictionFrame.

(** ** Nodal finite differences *)

Section Nodal.

Local Open Scope R_scope.




(** C5: for every field, coefficient table and index, and along each of
    the three axes, the downward derivative of the nodal algorithm is the
    upward derivative. *)
Theorem nodal_downward_is_upward (d : WarpXDim) (F : Array4)
    (coefs : CNA.ManagedVector) (n_coefs i j k : Z) :
  CNA.DownwardDx F coefs n_coefs i j k = CNA.UpwardDx F coefs n_coefs i j k /\
  CNA.DownwardDy d F coefs n_coefs i j k = CNA.UpwardDy d F coefs n_coefs i j k /\
  CNA.DownwardDz d F coefs n_coefs i j k = CNA.UpwardDz d F coefs n_coefs i j k.
Proof. repeat split. Qed.

End Nodal.

(** ** Spectral coefficients *)

Section Spectral.

Variable SpectralFieldDataRZ : Type.
Variable modified_k : SpectralFieldDataRZ -> list R.
Variable c : R.
Variables X1 X2 X3 : R -> R -> R.

Let Initialize :=
  PsatdAlgorithmRZ.InitializeSpectralCoefficients
    SpectralFieldDataRZ modified_k c X1 X2 X3.

Lemma Initialize_sets_flag (a : PsatdAlgorithmRZ.t) (f : SpectralFieldDataRZ) :
  PsatdAlgorithmRZ.coefficients_initialized (Initialize a f) = true.
Proof.
  unfold Initialize, PsatdAlgorithmRZ.InitializeSpectralCoefficients.
  destruct (PsatdAlgorithmRZ.coefficients_initialized a) eqn:E; [exact E | reflexivity].
Qed.

(** The first call on a freshly constructed object does compute the
    tables, from the saved time step. *)
Lemma first_call_computes (dt_step : R) (f : SpectralFieldDataRZ) :
  PsatdAlgorithmRZ.tables (Initialize (PsatdAlgorithmRZ.construct dt_step) f) =
  [ map (fun k => cos (c * k * dt_step)) (modified_k f);
    map (fun k => sin (c * k * dt_step) / (c * k)) (modified_k f);
    map (X1 dt_step) (modified_k f);
    map (X2 dt_step) (modified_k f);
    map (X3 dt_step) (modified_k f) ]%R.
Proof. reflexivity. Qed.

(** C3: after a first call of [InitializeSpectralCoefficients] the flag
    [coefficients_initialized] is set and a second call is a no-op: the
    tables C, S_ck, X1, X2, X3 are those of the first call, also when [dt]
    was changed or other field data are passed; with the same inputs the
    second call returns the object unchanged. *)
Theorem InitializeSpectralCoefficients_second_call
    (a : PsatdAlgorithmRZ.t) (f f' : SpectralFieldDataRZ) (dt' : R) :
  let a1 := Initialize a f in
  PsatdAlgorithmRZ.coefficients_initialized a1 = true /\
  PsatdAlgorithmRZ.tables (Initialize (PsatdAlgorithmRZ.with_dt a1 dt') f')
    = PsatdAlgorithmRZ.tables a1 /\
  Initialize a1 f' = a1 /\
  Initialize a1 f = a1.
Proof.
  intros a1. pose proof (Initialize_sets_flag a f) as H. fold a1 in H.
  assert (Hno : forall g, Initialize a1 g = a1).
  { intros g. unfold Initialize, PsatdAlgorithmRZ.InitializeSpectralCoefficients.
    now rewrite H. }
  repeat split; auto.
  unfold Initialize, PsatdAlgorithmRZ.InitializeSpectralCoefficients.
  simpl. now rewrite H.
Qed.

End Spectral.

(** ** Guard cells *)

Section GuardCells.

Local Open Scope Z_scope.

Variable Feature : Type.
Variable supported : list Feature.
Variable enabled : GCM.Options -> Feature -> bool.
Variable required : GCM.Options -> Feature -> GCM.Width -> GCM.IntVect.

Let width := GCM.width Feature supported enabled required.
Let Init := GCM.Init Feature supported enabled required.

Lemma vle_refl (a : GCM.IntVect) : GCM.vle a a.
Proof. unfold GCM.vle. lia. Qed.

Lemma vle_vmax_r (a b c : GCM.IntVect) :
  GCM.vle a b -> GCM.vle a (GCM.vmax c b).
Proof. unfold GCM.vle. simpl. lia. Qed.

Lemma vle_vmax_mono (a b c : GCM.IntVect) :
  GCM.vle a b -> GCM.vle (GCM.vmax c a) (GCM.vmax c b).
Proof. unfold GCM.vle. simpl. lia. Qed.

Lemma member_Init (o : GCM.Options) (safe : bool) (w : GCM.Width) :
  GCM.member w (Init o safe) = width o safe w.
Proof. destruct w; reflexivity. Qed.

(** No component of a width is negative. *)
Lemma width_nonneg (o : GCM.Options) (safe : bool) (w : GCM.Width) :
  GCM.vle GCM.TheZeroVector (width o safe w).
Proof.
  unfold width, GCM.width.
  induction supported as [| f fs IH]; simpl.
  - apply vle_refl.
  - destruct (safe || enabled o f); [now apply vle_vmax_r | exact IH].
Qed.

Lemma width_safe (o : GCM.Options) (w : GCM.Width) :
  GCM.vle (width o false w) (width o true w).
Proof.
  unfold width, GCM.width.
  induction supported as [| f fs IH]; simpl.
  - apply vle_refl.
  - destruct (enabled o f).
    + now apply vle_vmax_mono.
    + now apply vle_vmax_r.
Qed.

(** C7: for every configuration of the other inputs and every width
    vector that [Init] fills, each component computed with
    [safe_guard_cells = true] is at least the component computed with
    [safe_guard_cells = false]. *)
Theorem safe_guard_cells_widen (o : GCM.Options) (w : GCM.Width) :
  GCM.vle (GCM.member w (Init o false)) (GCM.member w (Init o true)).
Proof. rewrite !member_Init. apply width_safe. Qed.

End GuardCells.

(** * The restriction kernel in binary64 *)

(** ** The class over an arbitrary arithmetic *)

Section KernelLoop.

Variable A : Kernel.Arith.
Variable d : SpaceDim.
Variable F : Kernel.Array4 A.
Variables i j k ii jj kk : Z.

Local Open Scope Z_scope.


End KernelLoop.


(** Over the exact reals the expression is the one of the class above. *)
Lemma kernel_rhs_reals (d : SpaceDim) (f : Z -> Z -> Z -> Z -> R)
    (ii jj kk m : Z) :
  Kernel.rhs Kernel.reals d f ii jj kk m = IDFC.rhs d f ii jj kk m.
Proof. destruct d; reflexivity. Qed.


(** ** Exact evaluations *)

Section Exactness.

Import Floats QArith Qreals.
Local Open Scope R_scope.
















End Exactness.

(** ** The uniform field of value 5.0 *)

Section UniformFive.

Import Floats.
Local Open Scope float_scope.












End UniformFive.

(** ** Constant fields, bounds and linearity in binary64 *)

Section RestrictionBinary64.

Import Floats QArith Qreals.
Local Open Scope R_scope.













End RestrictionBinary64.

(** * Further properties of the code *)

(** ** Restriction: reads, edge cases and sweeps *)

Section RestrictionMore.

Local Open Scope R_scope.

Lemma inside_same_box (F1 F2 : Array4) (c : Z * Z * Z) :
  a_begin F1 = a_begin F2 -> a_end F1 = a_end F2 ->
  inside F1 c = inside F2 c.
Proof.
  intros Hb He. destruct c as [[x y] z]. unfold inside, contains.
  now rewrite Hb, He.
Qed.

(** X1: the value written for component m depends on the fine view only
    through its box and the component-m values of the footprint cells
    that lie in the box; it depends on nothing else in the fine view and
    not on the coarse view. *)
Theorem restriction_reads_only_footprint (d : SpaceDim)
    (F1 F2 coarse1 coarse2 : Array4) (ratio n i j k m : Z) :
  a_begin F1 = a_begin F2 -> a_end F1 = a_end F2 ->
  (0 <= m < n)%Z ->
  (forall c, In c (Stencil.footprint d (i * ratio) (j * ratio) (k * ratio)) ->
             inside F1 c = true ->
             Stencil.at_cell (get F1) m c = Stencil.at_cell (get F2) m c) ->
  restricted d (IDFC.mk F1 coarse1 ratio n) i j k m =
  restricted d (IDFC.mk F2 coarse2 ratio n) i j k m.
Proof.
  intros Hb He Hm Hagree. rewrite !restricted_rhs by assumption. simpl.
  rewrite !rhs_weighted_average. unfold Stencil.weighted_average.
  apply weighted_sum_ext. intros o Ho. rewrite !fine_at_cell.
  rewrite <- (inside_same_box F1 F2 _ Hb He).
  destruct (inside F1 _) eqn:Hin; [| reflexivity].
  apply Hagree; [| assumption].
  unfold Stencil.footprint. now apply in_map.
Qed.

Lemma restriction_reads_only_footprint_witness :
  restricted SPACEDIM_3
    (IDFC.mk Patches.five Patches.zero_coarse 2 1) 0 0 0 0 =
  restricted SPACEDIM_3
    (IDFC.mk (uniform Patches.fine_lo Patches.fine_hi 7 5) Patches.five 2 1)
    0 0 0 0.
Proof.
  apply (restriction_reads_only_footprint SPACEDIM_3 Patches.five
           (uniform Patches.fine_lo Patches.fine_hi 7 5)
           Patches.zero_coarse Patches.five 2 1 0 0 0 0);
    try reflexivity.
  lia.
Defined.

(** X2: with no component to process (number_of_components <= 0) a call
    leaves the whole coarse view as it was. *)
Theorem call_without_components (d : SpaceDim) (self : IDFC.t)
    (i j k i' j' k' n' : Z) :
  (IDFC.m_number_of_components self <= 0)%Z ->
  get (IDFC.m_coarse (IDFC.call d self i j k)) i' j' k' n' =
  get (IDFC.m_coarse self) i' j' k' n'.
Proof.
  intros Hn. rewrite call_content.
  replace ((0 <=? n')%Z && (n' <? IDFC.m_number_of_components self)%Z)
    with false.
  - now rewrite andb_false_r.
  - symmetry. apply andb_false_iff.
    destruct (Z.leb_spec 0 n'); [right; apply Z.ltb_ge; lia | now left].
Qed.

Lemma call_without_components_witness :
  get (IDFC.m_coarse
         (IDFC.call SPACEDIM_3 (IDFC.mk Patches.five Patches.zero_coarse 2 0)
                    0 0 0)) 0 0 0 0 =
  get Patches.zero_coarse 0 0 0 0.
Proof.
  apply (call_without_components SPACEDIM_3
           (IDFC.mk Patches.five Patches.zero_coarse 2 0)).
  simpl. lia.
Defined.

(** X3: a coarse cell whose footprint misses the fine view altogether is
    not skipped: it is overwritten with 0, whatever the fine view holds. *)
Theorem restriction_outside_fine_view (d : SpaceDim) (self : IDFC.t)
    (i j k m : Z) :
  (0 <= m < IDFC.m_number_of_components self)%Z ->
  forallb (fun c => negb (inside (IDFC.m_fine self) c))
          (fine_footprint d self i j k) = true ->
  restricted d self i j k m = 0.
Proof.
  intros Hm Hout. rewrite restricted_rhs by assumption.
  rewrite rhs_weighted_average. unfold Stencil.weighted_average.
  rewrite (weighted_sum_ext _ _ (fun _ => 0)).
  - rewrite weighted_sum_const. lra.
  - intros o Ho. rewrite fine_at_cell.
    rewrite forallb_forall in Hout.
    specialize (Hout (Stencil.shift (i * IDFC.m_refinement_ratio self)
                                    (j * IDFC.m_refinement_ratio self)
                                    (k * IDFC.m_refinement_ratio self) o)).
    rewrite negb_true_iff in Hout. rewrite Hout; [reflexivity |].
    unfold fine_footprint, Stencil.footprint. now apply in_map.
Qed.

Lemma restriction_outside_fine_view_witness :
  restricted SPACEDIM_3 Patches.five_op 5 5 5 0 = 0.
Proof.
  apply (restriction_outside_fine_view SPACEDIM_3 Patches.five_op 5 5 5 0).
  - simpl. lia.
  - reflexivity.
Defined.

Lemma weighted_sum_le {A : Type} (w x y : A -> R) (l : list A) :
  (forall o, In o l -> 0 <= w o) ->
  (forall o, In o l -> x o <= y o) ->
  Stencil.weighted_sum w x l <= Stencil.weighted_sum w y l.
Proof.
  unfold Stencil.weighted_sum.
  induction l as [| o l IH]; simpl; intros Hw Hxy; [lra |].
  assert (0 <= w o) by (apply Hw; now left).
  assert (x o <= y o) by (apply Hxy; now left).
  assert (Stencil.Rsum (map (fun o => w o * x o) l) <=
          Stencil.Rsum (map (fun o => w o * y o) l))
    by (apply IH; intros; [apply Hw | apply Hxy]; now right).
  nra.
Qed.

(** X4: restriction preserves order.  If the fine view F1 is at most F2
    on the footprint cells that lie in their common box, the value
    written from F1 is at most the value written from F2. *)
Theorem restriction_monotone (d : SpaceDim)
    (F1 F2 coarse : Array4) (ratio n i j k m : Z) :
  a_begin F1 = a_begin F2 -> a_end F1 = a_end F2 ->
  (0 <= m < n)%Z ->
  (forall c, In c (Stencil.footprint d (i * ratio) (j * ratio) (k * ratio)) ->
             inside F1 c = true ->
             Stencil.at_cell (get F1) m c <= Stencil.at_cell (get F2) m c) ->
  restricted d (IDFC.mk F1 coarse ratio n) i j k m <=
  restricted d (IDFC.mk F2 coarse ratio n) i j k m.
Proof.
  intros Hb He Hm Hle. rewrite !restricted_rhs by assumption. simpl.
  rewrite !rhs_weighted_average. unfold Stencil.weighted_average.
  apply weighted_sum_le.
  - intros o _. apply binomial_weight_nonneg.
  - intros o Ho. rewrite !fine_at_cell.
    rewrite <- (inside_same_box F1 F2 _ Hb He).
    destruct (inside F1 _) eqn:Hin; [| lra].
    apply Hle; [| assumption].
    unfold Stencil.footprint. now apply in_map.
Qed.

Lemma restriction_monotone_witness :
  restricted SPACEDIM_3
    (IDFC.mk Patches.face_pulse Patches.zero_coarse 2 1) 0 0 0 0 <=
  restricted SPACEDIM_3
    (IDFC.mk Patches.five Patches.zero_coarse 2 1) 0 0 0 0.
Proof.
  apply (restriction_monotone SPACEDIM_3 Patches.face_pulse Patches.five
           Patches.zero_coarse 2 1 0 0 0 0); try reflexivity.
  - lia.
  - intros [[x y] z] _ _. simpl. destruct (same_cell 1 0 0 0 x y z 0); lra.
Defined.

(** X8: the constructor stops exactly when assertions are compiled in
    and the refinement ratio is not 2; in every other case it builds the
    object with the two views, the ratio and the number of components it
    was given, whatever the ratio is. *)
Theorem construct_aborts_iff (assertions : bool) (fine coarse : Array4)
    (ratio n : Z) :
  (IDFC.construct assertions fine coarse ratio n = None <->
   assertions = true /\ ratio <> 2%Z) /\
  (forall self, IDFC.construct assertions fine coarse ratio n = Some self ->
     self = IDFC.mk fine coarse ratio n).
Proof.
  unfold IDFC.construct.
  destruct assertions; simpl; destruct (Z.eqb_spec ratio 2); simpl; split;
    try (split; [discriminate | intros [H1 H2]; congruence]);
    try (intros self [= <-]; reflexivity);
    try discriminate.
  split; [intros _; split; [reflexivity | assumption] | reflexivity].
Qed.

Lemma construct_aborts_iff_witness :
  IDFC.construct true Patches.five Patches.zero_coarse 3 1 = None.
Proof.
  apply (construct_aborts_iff true Patches.five Patches.zero_coarse 3 1).
  split; [reflexivity | lia].
Defined.

End RestrictionMore.

Section Sweeps.

Local Open Scope Z_scope.

Lemma cell_eqb_true (a b : Z * Z * Z) : cell_eqb a b = true <-> a = b.
Proof.
  destruct a as [[i j] k], b as [[i' j'] k']. unfold cell_eqb.
  rewrite !andb_true_iff, !Z.eqb_eq. split.
  - intros [[-> ->] ->]. reflexivity.
  - intros H. injection H as -> -> ->. auto.
Qed.

Lemma existsb_cell_In (c : Z * Z * Z) (cells : list (Z * Z * Z)) :
  existsb (cell_eqb c) cells = true <-> In c cells.
Proof.
  rewrite existsb_exists. split.
  - intros [x [Hin Heq]]. apply cell_eqb_true in Heq. now subst.
  - intros Hin. exists c. split; [assumption | now apply cell_eqb_true].
Qed.

(** Content of the coarse view after a sweep *)
Lemma sweep_get (d : SpaceDim) (cells : list (Z * Z * Z)) (self : IDFC.t)
    (i' j' k' n' : Z) :
  (forall c, In c cells -> launch_index d (snd c)) ->
  let r := IDFC.m_refinement_ratio self in
  get (IDFC.m_coarse (sweep d self cells)) i' j' k' n' =
  if existsb (cell_eqb (i', j', k')) cells &&
     ((0 <=? n') && (n' <? IDFC.m_number_of_components self))
  then IDFC.rhs d (IDFC.fine (IDFC.m_fine self)) (i' * r) (j' * r) (k' * r) n'
  else get (IDFC.m_coarse self) i' j' k' n'.
Proof.
  revert self. induction cells as [| [[i j] k] cells IH]; intros self Hl r.
  - reflexivity.
  - unfold sweep. simpl fold_left. fold (sweep d (IDFC.call d self i j k) cells).
    rewrite IH by (intros c Hc; apply Hl; now right).
    simpl IDFC.m_fine. simpl IDFC.m_refinement_ratio.
    simpl IDFC.m_number_of_components. fold r.
    rewrite call_content. fold r.
    rewrite (written_k_launch d self k (Hl (i, j, k) (or_introl eq_refl))).
    simpl existsb.
    set (range := (0 <=? n') && (n' <? IDFC.m_number_of_components self)).
    destruct (existsb (cell_eqb (i', j', k')) cells); destruct range;
      rewrite ?orb_true_r, ?orb_false_r, ?andb_true_r, ?andb_false_r;
      simpl; try reflexivity.
    destruct ((i' =? i) && (j' =? j) && (k' =? k)) eqn:E; [| reflexivity].
    rewrite !andb_true_iff, !Z.eqb_eq in E. destruct E as [[-> ->] ->].
    reflexivity.
Qed.

(** X5: after the kernel was called at every index of a list, each listed
    coarse cell holds, in the components below number_of_components, the
    stencil value computed from the fine view, and every other cell and
    component is as before; hence two lists with the same indices give the
    same coarse content, whatever their order and repetitions.  (With
    [AMREX_SPACEDIM == 2] the indices have k = 0.) *)
Theorem sweep_result (d : SpaceDim) (self : IDFC.t)
    (cells cells' : list (Z * Z * Z)) :
  (forall c, In c cells -> launch_index d (snd c)) ->
  (forall c, In c cells' -> launch_index d (snd c)) ->
  (forall c, In c cells <-> In c cells') ->
  (forall i j k m,
     In (i, j, k) cells -> 0 <= m < IDFC.m_number_of_components self ->
     get (IDFC.m_coarse (sweep d self cells)) i j k m =
     restricted d self i j k m) /\
  (forall i j k m,
     ~ (In (i, j, k) cells /\ 0 <= m < IDFC.m_number_of_components self) ->
     get (IDFC.m_coarse (sweep d self cells)) i j k m =
     get (IDFC.m_coarse self) i j k m) /\
  (forall i j k m,
     get (IDFC.m_coarse (sweep d self cells)) i j k m =
     get (IDFC.m_coarse (sweep d self cells')) i j k m).
Proof.
  intros Hl Hl' Hsame. split; [| split].
  - intros i j k m Hin Hm. rewrite sweep_get by assumption.
    apply existsb_cell_In in Hin. rewrite Hin.
    destruct (Z.leb_spec 0 m); [| lia].
    destruct (Z.ltb_spec m (IDFC.m_number_of_components self)); [| lia].
    simpl. symmetry. now apply restricted_rhs.
  - intros i j k m Hnot. rewrite sweep_get by assumption.
    destruct (existsb (cell_eqb (i, j, k)) cells &&
              ((0 <=? m) && (m <? IDFC.m_number_of_components self))) eqn:E;
      [| reflexivity].
    exfalso. apply Hnot.
    rewrite !andb_true_iff, existsb_cell_In, Z.leb_le, Z.ltb_lt in E. tauto.
  - intros i j k m. rewrite !sweep_get by assumption.
    replace (existsb (cell_eqb (i, j, k)) cells')
      with (existsb (cell_eqb (i, j, k)) cells); [reflexivity |].
    apply eq_true_iff_eq. rewrite !existsb_cell_In. apply Hsame.
Qed.

Lemma sweep_result_witness :
  get (IDFC.m_coarse
         (sweep SPACEDIM_3 Patches.five_op [(0, 0, 0); (1, 0, 0)])) 1 0 0 0 =
  get (IDFC.m_coarse
         (sweep SPACEDIM_3 Patches.five_op [(1, 0, 0); (0, 0, 0); (1, 0, 0)]))
      1 0 0 0.
Proof.
  apply (sweep_result SPACEDIM_3 Patches.five_op
           [(0, 0, 0); (1, 0, 0)] [(1, 0, 0); (0, 0, 0); (1, 0, 0)]).
  - intros c _. exact I.
  - intros c _. exact I.
  - intros c. simpl. tauto.
Defined.

End Sweeps.

(** ** Restriction: separability *)

Section Separability.

Local Open Scope R_scope.




End Separability.

(** ** QED photon emission *)

Section RealComparison.

Local Open Scope R_scope.

Lemma Rltb_true (a b : R) : QPE.Rltb a b = true <-> a < b.
Proof.
  unfold QPE.Rltb. destruct (Rlt_dec a b); split; intros; auto; discriminate.
Qed.

Lemma Rltb_false (a b : R) : QPE.Rltb a b = false <-> b <= a.
Proof.
  unfold QPE.Rltb. destruct (Rlt_dec a b); split; intros; auto;
    try discriminate; lra.
Qed.

End RealComparison.

Section PhotonTransform.

Local Open Scope R_scope.

Variable P : QPE.PIdx.
Variable m_e : R.
Variable m_emission_functor :
  R -> R -> R -> R -> R -> R -> R -> R -> R -> R -> QPE.Emitted.
Variable m_opt_depth_functor : R.
Variable m_opt_depth_runtime_comp : Z.

Let transform :=
  QPE.transform P m_e m_emission_functor m_opt_depth_functor
                m_opt_depth_runtime_comp.

(** X13: the transform touches only the particle [i_src] of the source
    and the particle [i_dst] of the target.  In the source it changes at
    most the attributes ux, uy, uz and the optical depth of that
    particle; in the target at most w, ux, uy, uz of that particle; all
    identifiers, all other attributes and all other particles are as
    before. *)
Theorem transform_frame (dst src : QPE.TileData) (i_src i_dst : Z) :
  let '(dst', src') := transform dst src i_src i_dst in
  (forall comp p,
     ~ (p = i_src /\ (comp = QPE.ux P \/ comp = QPE.uy P \/ comp = QPE.uz P)) ->
     QPE.m_rdata src' comp p = QPE.m_rdata src comp p) /\
  (forall comp p,
     ~ (p = i_src /\ comp = m_opt_depth_runtime_comp) ->
     QPE.m_runtime_rdata src' comp p = QPE.m_runtime_rdata src comp p) /\
  (forall p, QPE.id src' p = QPE.id src p) /\
  (forall comp p,
     ~ (p = i_dst /\ (comp = QPE.w P \/ comp = QPE.ux P \/
                      comp = QPE.uy P \/ comp = QPE.uz P)) ->
     QPE.m_rdata dst' comp p = QPE.m_rdata dst comp p) /\
  (forall comp p,
     QPE.m_runtime_rdata dst' comp p = QPE.m_runtime_rdata dst comp p) /\
  (forall p, QPE.id dst' p = QPE.id dst p).
Proof.
  unfold transform, QPE.transform. cbv zeta.
  repeat split; try reflexivity.
  - intros comp p Hnot. simpl.
    repeat match goal with
    | |- context [(?a =? ?b)%Z] => destruct (Z.eqb_spec a b)
    end; simpl; try reflexivity; exfalso; apply Hnot; tauto.
  - intros comp p Hnot. simpl.
    destruct (Z.eqb_spec comp m_opt_depth_runtime_comp);
      destruct (Z.eqb_spec p i_src); simpl; try reflexivity.
    exfalso. apply Hnot. tauto.
  - intros comp p Hnot. simpl.
    repeat match goal with
    | |- context [(?a =? ?b)%Z] => destruct (Z.eqb_spec a b)
    end; simpl; try reflexivity; exfalso; apply Hnot; tauto.
Qed.

(** X14: after the transform the emission filter selects the source
    particle [i_src] exactly when the optical depth just drawn is
    negative, so never when it is non-negative; for every other particle
    of the source the filter answers as before. *)
Theorem filter_after_transform (dst src : QPE.TileData) (i_src i_dst i : Z) :
  let src' := snd (transform dst src i_src i_dst) in
  QPE.filter m_opt_depth_runtime_comp src' i =
    (if (i =? i_src)%Z then QPE.Rltb m_opt_depth_functor 0
     else QPE.filter m_opt_depth_runtime_comp src i) /\
  (0 <= m_opt_depth_functor ->
   QPE.filter m_opt_depth_runtime_comp src' i_src = false).
Proof.
  unfold transform, QPE.transform, QPE.filter. cbv zeta. simpl.
  rewrite !Z.eqb_refl. simpl. split.
  - destruct (i =? i_src)%Z; reflexivity.
  - intros H. now apply Rltb_false.
Qed.

End PhotonTransform.

Section PhotonCleaning.

Local Open Scope R_scope.

Variable P : QPE.PIdx.
Variables m_e c : R.

Let clean := QPE.cleanLowEnergyPhotons P m_e c.
Let energy2 := QPE.phot_energy2 P m_e c.

Lemma clean_one_rdata (old_size : Z) (thr2 : R) (t : QPE.TileData) (ip : Z) :
  QPE.m_rdata (QPE.clean_one P m_e c old_size thr2 t ip) = QPE.m_rdata t.
Proof.
  unfold QPE.clean_one.
  destruct (QPE.Rltb _ _); reflexivity.
Qed.

Lemma energy2_rdata (t t' : QPE.TileData) (p : Z) :
  QPE.m_rdata t' = QPE.m_rdata t -> energy2 t' p = energy2 t p.
Proof.
  intros H. unfold energy2, QPE.phot_energy2. now rewrite H.
Qed.

Lemma clean_one_runtime (old_size : Z) (thr2 : R) (t : QPE.TileData) (ip : Z) :
  QPE.m_runtime_rdata (QPE.clean_one P m_e c old_size thr2 t ip) =
  QPE.m_runtime_rdata t.
Proof.
  unfold QPE.clean_one.
  destruct (QPE.Rltb _ _); reflexivity.
Qed.

Lemma clean_one_id (old_size : Z) (thr2 : R) (t : QPE.TileData) (ip p : Z) :
  QPE.id (QPE.clean_one P m_e c old_size thr2 t ip) p =
  if (old_size + ip =? p)%Z && QPE.Rltb (energy2 t p) thr2
  then (-1)%Z else QPE.id t p.
Proof.
  unfold QPE.clean_one. fold (energy2 t (old_size + ip)%Z).
  destruct (Z.eqb_spec (old_size + ip) p) as [E | E]; simpl.
  - subst p. destruct (QPE.Rltb (energy2 t (old_size + ip)%Z) thr2); simpl;
      [now rewrite Z.eqb_refl | reflexivity].
  - destruct (QPE.Rltb (energy2 t (old_size + ip)%Z) thr2); simpl;
      [| reflexivity].
    destruct (Z.eqb_spec p (old_size + ip)); [congruence | reflexivity].
Qed.

(** The loop of [cleanLowEnergyPhotons] over the counter values [ms] *)
Lemma clean_loop (old_size : Z) (thr2 : R) (ms : list Z) (t : QPE.TileData)
    (p : Z) :
  let t' := fold_left (QPE.clean_one P m_e c old_size thr2) ms t in
  QPE.m_rdata t' = QPE.m_rdata t /\
  QPE.m_runtime_rdata t' = QPE.m_runtime_rdata t /\
  QPE.id t' p =
    if existsb (fun ip => (old_size + ip =? p)%Z) ms &&
       QPE.Rltb (energy2 t p) thr2
    then (-1)%Z else QPE.id t p.
Proof.
  revert t. induction ms as [| ip ms IH]; intros t; cbv zeta.
  - simpl. auto.
  - simpl fold_left.
    destruct (IH (QPE.clean_one P m_e c old_size thr2 t ip)) as (H1 & H2 & H3).
    split; [| split].
    + rewrite H1. apply clean_one_rdata.
    + rewrite H2. apply clean_one_runtime.
    + rewrite H3, clean_one_id.
      rewrite (energy2_rdata t _ p (clean_one_rdata old_size thr2 t ip)).
      simpl existsb.
      destruct (existsb (fun ip0 => (old_size + ip0 =? p)%Z) ms),
               (old_size + ip =? p)%Z,
               (QPE.Rltb (energy2 t p) thr2); reflexivity.
Qed.

Lemma counter_offset (old_size n p : Z) :
  existsb (fun ip => (old_size + ip =? p)%Z) (counter n) =
  (old_size <=? p)%Z && (p <? old_size + n)%Z.
Proof.
  apply eq_true_iff_eq.
  rewrite existsb_exists, andb_true_iff, Z.leb_le, Z.ltb_lt. split.
  - intros [ip [Hin Heq]]. apply counter_In in Hin. apply Z.eqb_eq in Heq. lia.
  - intros H. exists (p - old_size)%Z. split.
    + apply counter_In. lia.
    + apply Z.eqb_eq. lia.
Qed.

Lemma clean_id (t : QPE.TileData) (old_size num_added : Z) (thr : R) (p : Z) :
  QPE.id (clean t old_size num_added thr) p =
  if (old_size <=? p)%Z && (p <? old_size + num_added)%Z &&
     QPE.Rltb (energy2 t p) (thr * thr)
  then (-1)%Z else QPE.id t p.
Proof.
  unfold clean, QPE.cleanLowEnergyPhotons. cbv zeta.
  destruct (clean_loop old_size (thr * thr) (counter num_added) t p)
    as (_ & _ & H).
  rewrite H, counter_offset. reflexivity.
Qed.

Lemma clean_rdata (t : QPE.TileData) (old_size num_added : Z) (thr : R) :
  QPE.m_rdata (clean t old_size num_added thr) = QPE.m_rdata t.
Proof.
  unfold clean, QPE.cleanLowEnergyPhotons. cbv zeta.
  destruct (clean_loop old_size (thr * thr) (counter num_added) t 0)
    as (H & _ & _).
  exact H.
Qed.

Lemma energy2_nonneg (t : QPE.TileData) (p : Z) : 0 <= energy2 t p.
Proof.
  unfold energy2, QPE.phot_energy2. cbv zeta.
  set (a := QPE.m_rdata t (QPE.ux P) p).
  set (b := QPE.m_rdata t (QPE.uy P) p).
  set (d := QPE.m_rdata t (QPE.uz P) p).
  set (k := m_e * c).
  assert (0 <= a * a + b * b + d * d) by nra.
  assert (0 <= k * k) by nra.
  rewrite Rmult_assoc. now apply Rmult_le_pos.
Qed.


(** X17: only the square of the threshold matters: a negative threshold
    removes the photons that its absolute value removes; and a zero
    threshold removes none. *)
Theorem cleanLowEnergyPhotons_threshold_sign (t : QPE.TileData)
    (old_size num_added : Z) (thr : R) (p : Z) :
  QPE.id (clean t old_size num_added (- thr)) p =
    QPE.id (clean t old_size num_added thr) p /\
  QPE.id (clean t old_size num_added 0) p = QPE.id t p.
Proof.
  rewrite !clean_id. split.
  - replace (- thr * - thr) with (thr * thr) by lra. reflexivity.
  - replace (QPE.Rltb (energy2 t p) (0 * 0)) with false.
    + now rewrite andb_false_r.
    + symmetry. apply Rltb_false. pose proof (energy2_nonneg t p). lra.
Qed.

(** X18: cleaning twice over the same particles, with thresholds T1 and
    then T2, gives the identifiers that one cleaning with the larger of
    |T1| and |T2| gives; in particular cleaning twice with the same
    threshold is cleaning once. *)
Theorem cleanLowEnergyPhotons_twice (t : QPE.TileData)
    (old_size num_added : Z) (T1 T2 : R) (p : Z) :
  QPE.id (clean (clean t old_size num_added T1) old_size num_added T2) p =
    QPE.id (clean t old_size num_added (Rmax (Rabs T1) (Rabs T2))) p /\
  QPE.id (clean (clean t old_size num_added T1) old_size num_added T1) p =
    QPE.id (clean t old_size num_added T1) p.
Proof.
  assert (Hgen : forall A B,
    QPE.id (clean (clean t old_size num_added A) old_size num_added B) p =
    if (old_size <=? p)%Z && (p <? old_size + num_added)%Z &&
       (QPE.Rltb (energy2 t p) (A * A) || QPE.Rltb (energy2 t p) (B * B))
    then (-1)%Z else QPE.id t p).
  { intros A B. rewrite clean_id.
    rewrite (energy2_rdata t _ p (clean_rdata t old_size num_added A)).
    rewrite clean_id.
    destruct ((old_size <=? p)%Z && (p <? old_size + num_added)%Z); simpl;
      [| reflexivity].
    destruct (QPE.Rltb (energy2 t p) (A * A)),
             (QPE.Rltb (energy2 t p) (B * B)); reflexivity. }
  split.
  - rewrite Hgen, clean_id.
    replace (QPE.Rltb (energy2 t p) (T1 * T1) || QPE.Rltb (energy2 t p) (T2 * T2))
      with (QPE.Rltb (energy2 t p)
              (Rmax (Rabs T1) (Rabs T2) * Rmax (Rabs T1) (Rabs T2)));
      [reflexivity |].
    apply eq_true_iff_eq. rewrite orb_true_iff, !Rltb_true.
    pose proof (Rabs_pos T1). pose proof (Rabs_pos T2).
    assert (E1 : T1 * T1 = Rabs T1 * Rabs T1)
      by (unfold Rabs; destruct (Rcase_abs T1); lra).
    assert (E2 : T2 * T2 = Rabs T2 * Rabs T2)
      by (unfold Rabs; destruct (Rcase_abs T2); lra).
    rewrite E1, E2.
    unfold Rmax. destruct (Rle_dec (Rabs T1) (Rabs T2)); split; intros; nra.
  - rewrite Hgen, clean_id. now rewrite orb_diag.
Qed.

End PhotonCleaning.

Section PhotonEmissionInstances.

Local Open Scope R_scope.

Lemma transform_frame_witness :
  QPE.m_rdata
    (snd (QPE.transform Particles.pidx 1 Particles.take_all 0 0
            Particles.ones Particles.ones 0 0))
    (QPE.w Particles.pidx) 0 =
  QPE.m_rdata Particles.ones (QPE.w Particles.pidx) 0.
Proof.
  pose proof (transform_frame Particles.pidx 1 Particles.take_all 0 0
                Particles.ones Particles.ones 0 0) as H.
  destruct H as [H _]. apply H. simpl. lia.
Defined.

Lemma filter_after_transform_witness :
  QPE.filter 0
    (snd (QPE.transform Particles.pidx 1 Particles.take_all 0 0
            Particles.ones Particles.ones 0 0)) 0 = false.
Proof.
  apply (filter_after_transform Particles.pidx 1 Particles.take_all 0 0
           Particles.ones Particles.ones 0 0 0).
  lra.
Defined.


End PhotonEmissionInstances.

(** ** Physical species *)

Section Species.

Import String.
Local Open Scope string_scope.

Lemma from_string_name (s : string) (ps : species.PhysicalSpecies) :
  species.from_string s = Some ps -> s = species.name ps.
Proof.
  unfold species.from_string.
  destruct (s =? "unspecified") eqn:E1;
    [apply String.eqb_eq in E1; intros [= <-]; exact E1 |].
  destruct (s =? "electron") eqn:E2;
    [apply String.eqb_eq in E2; intros [= <-]; exact E2 |].
  destruct (s =? "positron") eqn:E3;
    [apply String.eqb_eq in E3; intros [= <-]; exact E3 |].
  destruct (s =? "photon") eqn:E4;
    [apply String.eqb_eq in E4; intros [= <-]; exact E4 |].
  destruct (s =? "hydrogen") eqn:E5;
    [apply String.eqb_eq in E5; intros [= <-]; exact E5 |].
  discriminate.
Qed.

(** X20: [from_string] reads exactly the five species names, each as its
    own species; every other string, for instance a name in another
    letter case or the empty string, ends in the abort. *)
Theorem from_string_names :
  (forall ps, species.from_string (species.name ps) = Some ps) /\
  (forall s ps, species.from_string s = Some ps -> s = species.name ps) /\
  (forall s, (forall ps, s <> species.name ps) -> species.from_string s = None) /\
  species.from_string "Electron" = None /\
  species.from_string "" = None.
Proof.
  repeat split; try reflexivity.
  - intros ps. destruct ps; reflexivity.
  - exact from_string_name.
  - intros s Hs. destruct (species.from_string s) as [ps |] eqn:E;
      [| reflexivity].
    exfalso. apply (Hs ps). now apply from_string_name.
Qed.

Lemma from_string_names_witness :
  species.from_string "muon" = None.
Proof.
  destruct from_string_names as (_ & _ & H & _).
  apply H. intros ps. destruct ps; discriminate.
Defined.

(** X21: the species read from the name "unspecified" is the only one
    for which [get_charge] and [get_mass] return NaN; for every other
    name that [from_string] reads, both are numbers. *)
Theorem charge_and_mass_defined (q_e m_e m_p : R) (s : string)
    (ps : species.PhysicalSpecies) :
  species.from_string s = Some ps ->
  (s = "unspecified" ->
   species.get_charge q_e ps = species.quiet_NaN /\
   species.get_mass m_e m_p ps = species.quiet_NaN) /\
  (s <> "unspecified" ->
   exists q m, species.get_charge q_e ps = species.num q /\
               species.get_mass m_e m_p ps = species.num m).
Proof.
  intros H. apply from_string_name in H. subst s. split.
  - destruct ps; simpl; intros E; try discriminate. split; reflexivity.
  - destruct ps; simpl; intros E; try (exfalso; now apply E);
      eexists; eexists; split; reflexivity.
Qed.

Lemma charge_and_mass_defined_witness :
  exists q m, species.get_charge 1 species.electron = species.num q /\
              species.get_mass 1 2 species.electron = species.num m.
Proof.
  apply (charge_and_mass_defined 1 1 2 "electron" species.electron).
  - reflexivity.
  - discriminate.
Defined.

End Species.
